(** * Cosmic Queries: the fact service and the request lifecycle of [App]

    A shallow embedding of [services/geminiService.ts] and of the state
    logic of [App.tsx], followed by the properties of the two.

    - [Js]            the JavaScript values the program manipulates:
                      strings as sequences of UTF-16 code units, truthiness
                      of [string | null | undefined], thrown values and
                      completions (a value, or a throw / a rejected promise);
    - [GeminiService] module evaluation (the [API_KEY] guard) and
                      [generatePhysicsFact];
    - [App]           the three [useState] cells, [handleGenerateFact] split
                      at its single [await], the derived [isCardLoading], and
                      runs of refresh invocations and settlements. *)

From Stdlib Require Import List String Ascii NArith Bool Arith Lia.
Import ListNotations.

Local Open Scope N_scope.

(* ------------------------------------------------------------------ *)
(** ** JavaScript values *)

Module Js.

(** A JavaScript string is a finite sequence of 16-bit code units. *)
Definition codeunit := N.
Definition jsstring := list codeunit.

(** String literals of the source are plain ASCII. *)
Definition lit (s : string) : jsstring :=
  map N_of_ascii (list_ascii_of_string s).

(** The line feed, which a string literal here cannot hold. *)
Definition LF : jsstring := [0x0A].

(** ECMAScript [WhiteSpace] and [LineTerminator] code points, the ones
    [String.prototype.trim] removes.  All of them lie in the basic plane, so
    a test on code units is a test on code points. *)
Definition isWhiteSpace (c : codeunit) : bool :=
  ((0x09 <=? c) && (c <=? 0x0D))          (* TAB, LF, VT, FF, CR *)
  || (c =? 0x20)                          (* SPACE *)
  || (c =? 0xA0)                          (* NO-BREAK SPACE *)
  || (c =? 0x1680)                        (* OGHAM SPACE MARK *)
  || ((0x2000 <=? c) && (c <=? 0x200A))   (* EN QUAD .. HAIR SPACE *)
  || (c =? 0x2028) || (c =? 0x2029)       (* LINE / PARAGRAPH SEPARATOR *)
  || (c =? 0x202F)                        (* NARROW NO-BREAK SPACE *)
  || (c =? 0x205F)                        (* MEDIUM MATHEMATICAL SPACE *)
  || (c =? 0x3000)                        (* IDEOGRAPHIC SPACE *)
  || (c =? 0xFEFF).                       (* ZERO WIDTH NO-BREAK SPACE *)

Fixpoint trimStart (s : jsstring) : jsstring :=
  match s with
  | c :: s' => if isWhiteSpace c then trimStart s' else s
  | [] => []
  end.

Definition trimEnd (s : jsstring) : jsstring := rev (trimStart (rev s)).

(** [s.trim()] *)
Definition trim (s : jsstring) : jsstring := trimEnd (trimStart s).

Definition allWhiteSpace (s : jsstring) : bool := forallb isWhiteSpace s.

(** Truthiness of a value of type [string | null | undefined]: [null],
    [undefined] and the empty string are falsy, every other string is
    truthy. *)
Definition truthy (v : option jsstring) : bool :=
  match v with
  | Some (_ :: _) => true
  | Some [] => false
  | None => false
  end.

(** What a [catch] clause can bind: an instance of [Error] with its
    [message], or any other thrown value (a string, a plain object, ...),
    kept by a printed form.  [e instanceof Error] is a match on the
    constructor. *)
Inductive thrown : Type :=
| ErrorObject (message : jsstring)
| OtherValue (repr : jsstring).

(** Outcome of evaluating a block, and of awaiting a promise: a value
    (the promise fulfilled) or a throw (the promise rejected). *)
Inductive completion (A : Type) : Type :=
| Normal (a : A)
| Throw (e : thrown).
Arguments Normal {A} a.
Arguments Throw {A} e.

Definition bind {A B : Type} (c : completion A) (k : A -> completion B)
  : completion B :=
  match c with
  | Normal a => k a
  | Throw e => Throw e
  end.

(** [try { body } catch (e) { handler e }] *)
Definition try_catch {A : Type} (body : completion A)
  (handler : thrown -> completion A) : completion A :=
  match body with
  | Normal a => Normal a
  | Throw e => handler e
  end.

(** First and last code unit of a string are white space (false on the
    empty string). *)
Definition startsWithWhiteSpace (s : jsstring) : bool :=
  match s with
  | c :: _ => isWhiteSpace c
  | [] => false
  end.

Definition endsWithWhiteSpace (s : jsstring) : bool :=
  startsWithWhiteSpace (rev s).

End Js.

Import Js.

Notation "'let*' x ':=' c 'in' k" := (bind c (fun x => k))
  (at level 10, x name, c at level 100, k at level 200).

(* ------------------------------------------------------------------ *)
(** ** services/geminiService.ts *)

Module GeminiService.

(** The client of the external library, as far as this program sees it:
    [new GoogleGenAI({ apiKey })] keeps the key it is given. *)
Record GoogleGenAI : Type := { apiKey : option jsstring }.

(** The part of a [generateContent] response the program reads:
    [response.text : string | undefined]. *)
Record GenerateContentResponse : Type := { text : option jsstring }.

Definition MSG_NOT_SET : jsstring :=
  lit "The API_KEY environment variable is not set. Please set it to a valid Google Gemini API key.".
Definition MSG_NO_CONTENT : jsstring :=
  lit "No content was returned from the API.".
Definition MSG_PREFIX : jsstring :=
  lit "Failed to generate fact from AI service: ".
Definition MSG_UNKNOWN : jsstring :=
  lit "An unknown error occurred while communicating with the AI service.".
Definition MSG_TRIM_OF_UNDEFINED : jsstring :=
  lit "Cannot read properties of undefined (reading 'trim')".

(** Evaluation of the module's top level, given [process.env.API_KEY]:
<<
  const API_KEY = process.env.API_KEY;
  if (!API_KEY) { throw new Error("The API_KEY environment variable ..."); }
  const ai = new GoogleGenAI({ apiKey: API_KEY });
>>
    The result is the module's [ai] binding, or the error thrown. *)
Definition load (API_KEY : option jsstring) : completion GoogleGenAI :=
  if negb (truthy API_KEY)
  then Throw (ErrorObject MSG_NOT_SET)
  else Normal {| apiKey := API_KEY |}.

(** [generatePhysicsFact], as a function of how the one outbound call
    [await ai.models.generateContent(...)] settles.
<<
  try {
    const response = await ai.models.generateContent({ ... });
    const text = response.text;
    if (!text) { throw new Error("No content was returned from the API."); }
    return text.trim();
  } catch (error) {
    console.error("Error generating physics fact:", error);
    if (error instanceof Error) {
      throw new Error(`Failed to generate fact from AI service: ${error.message}`);
    }
    throw new Error("An unknown error occurred while communicating with the AI service.");
  }
>>
    Reading [text.trim()] on [undefined] would be a [TypeError]; the guard
    before it makes that branch dead, it is kept so that the body reads as
    the source does. *)
Definition generatePhysicsFact_try
  (call : completion GenerateContentResponse) : completion jsstring :=
  let* response := call in
  let text := text response in
  if negb (truthy text)
  then Throw (ErrorObject MSG_NO_CONTENT)
  else match text with
       | Some t => Normal (trim t)
       | None => Throw (ErrorObject MSG_TRIM_OF_UNDEFINED)
       end.

Definition generatePhysicsFact_catch (error : thrown) : completion jsstring :=
  match error with
  | ErrorObject message => Throw (ErrorObject (MSG_PREFIX ++ message))
  | OtherValue _ => Throw (ErrorObject MSG_UNKNOWN)
  end.

Definition generatePhysicsFact
  (call : completion GenerateContentResponse) : completion jsstring :=
  try_catch (generatePhysicsFact_try call) generatePhysicsFact_catch.

End GeminiService.

(* ------------------------------------------------------------------ *)
(** ** App.tsx *)

Module App.

(** The three [useState] cells of the component. *)
Record state : Type := {
  fact : option jsstring;      (* string | null *)
  isLoading : bool;
  error : option jsstring      (* string | null *)
}.

(** [useState(null)], [useState(true)], [useState(null)] *)
Definition initial : state :=
  {| fact := None; isLoading := true; error := None |}.

(** A call of one of the three setters. *)
Inductive update : Type :=
| SetFact (v : option jsstring)
| SetIsLoading (b : bool)
| SetError (v : option jsstring).

Definition apply (st : state) (u : update) : state :=
  match u with
  | SetFact v => {| fact := v; isLoading := isLoading st; error := error st |}
  | SetIsLoading b => {| fact := fact st; isLoading := b; error := error st |}
  | SetError v => {| fact := fact st; isLoading := isLoading st; error := v |}
  end.

(** The setters called in one synchronous stretch of code are batched by
    React (version 19 here) and committed together, in call order. *)
Definition commit (st : state) (us : list update) : state :=
  fold_left apply us st.

Definition MSG_UNKNOWN : jsstring := lit "An unknown error occurred.".

(** [handleGenerateFact] up to its [await].  The callback is a closure over
    the [isLoading] of the render that created it ([useCallback] with
    dependencies [[isLoading]]).
<<
  if (!isLoading) { setIsLoading(true); }
  setError(null);
>> *)
Definition handleGenerateFact_start (isLoading : bool) : list update :=
  (if negb isLoading then [SetIsLoading true] else []) ++ [SetError None].

(** [handleGenerateFact] from the moment [await generatePhysicsFact()]
    settles with [r].
<<
  try { const newFact = await generatePhysicsFact(); setFact(newFact); }
  catch (e) {
    const errorMessage = e instanceof Error ? e.message : 'An unknown error occurred.';
    setError(errorMessage);
    setFact(null);
  } finally { setIsLoading(false); }
>> *)
Definition handleGenerateFact_settle (r : completion jsstring) : list update :=
  match r with
  | Normal newFact => [SetFact (Some newFact)]
  | Throw e =>
      let errorMessage :=
        match e with
        | ErrorObject message => message
        | OtherValue _ => MSG_UNKNOWN
        end in
      [SetError (Some errorMessage); SetFact None]
  end ++ [SetIsLoading false].

(** [const isCardLoading = isLoading && !fact && !error;] *)
Definition isCardLoading (st : state) : bool :=
  isLoading st && negb (truthy (fact st)) && negb (truthy (error st)).

(** What a render hands to the button: [disabled={isLoading}] and
    [onClick={handleGenerateFact}], the callback of this render. *)
Record button : Type := { disabled : bool; onClick : list update }.

Definition render_button (st : state) : button :=
  {| disabled := isLoading st;
     onClick := handleGenerateFact_start (isLoading st) |}.

(** Invoking the current callback: the state once the code before the
    [await] has run. *)
Definition refresh (st : state) : state :=
  commit st (onClick (render_button st)).

(** The state once the awaited promise has settled with [r] and the rest of
    the callback has run. *)
Definition settle (st : state) (r : completion jsstring) : state :=
  commit st (handleGenerateFact_settle r).

(** All the setter calls of one invocation, in order. *)
Definition handleGenerateFact_updates (isLoading : bool)
  (r : completion jsstring) : list update :=
  handleGenerateFact_start isLoading ++ handleGenerateFact_settle r.

Definition clearsLoading (u : update) : bool :=
  match u with
  | SetIsLoading false => true
  | _ => false
  end.

Definition writesFact (u : update) : bool :=
  match u with
  | SetFact _ => true
  | _ => false
  end.

(** *** Runs

    The component together with the outbound calls still in flight.  The
    only things that happen are an invocation of the callback and the
    settlement of one of the calls in flight; the settlement carries the
    way the external service answered. *)
Record world : Type := { ui : state; pending : nat }.

Definition boot : world := {| ui := initial; pending := 0%nat |}.

Inductive event : Type :=
| Refresh
| Settle (call : completion GeminiService.GenerateContentResponse).

Definition step (w : world) (e : event) : option world :=
  match e with
  | Refresh => Some {| ui := refresh (ui w); pending := S (pending w) |}
  | Settle call =>
      match pending w with
      | O => None
      | S n =>
          Some {| ui := settle (ui w) (GeminiService.generatePhysicsFact call);
                  pending := n |}
      end
  end.

Fixpoint run (w : world) (es : list event) : option world :=
  match es with
  | [] => Some w
  | e :: es' =>
      match step w e with
      | Some w' => run w' es'
      | None => None
      end
  end.

(** Runs in which the callback is invoked only while nothing is in flight:
    the discipline the disabled button is there to enforce. *)
Definition step_exclusive (w : world) (e : event) : option world :=
  match e, pending w with
  | Refresh, S _ => None
  | _, _ => step w e
  end.

Fixpoint run_exclusive (w : world) (es : list event) : option world :=
  match es with
  | [] => Some w
  | e :: es' =>
      match step_exclusive w e with
      | Some w' => run_exclusive w' es'
      | None => None
      end
  end.

(** What holds of the component while the callback is invoked only with
    nothing in flight: at most one call is in flight; while one is,
    [isLoading] is true and [error] is null; and [fact] and [error] are not
    both set. *)
Definition exclusive_inv (w : world) : Prop :=
  (pending w <= 1)%nat
  /\ (pending w = 1%nat -> isLoading (ui w) = true /\ error (ui w) = None)
  /\ (fact (ui w) = None \/ error (ui w) = None).

(** Evaluation of the application's module graph: [App.tsx] imports
    [services/geminiService], so the service module is evaluated first and
    a throw there leaves [App] undefined; otherwise the component mounts in
    its initial state. *)
Definition start (API_KEY : option jsstring) : completion world :=
  let* _ := GeminiService.load API_KEY in Normal boot.

End App.

(* ------------------------------------------------------------------ *)
(** ** App.tsx: what is rendered, and what the page can trigger *)

Module AppUI.

Import App.

(** What [FactDisplay] puts in the card: the spinner, the warning icon
    with [<p>{error}</p>], or [<p>{fact}</p>]. *)
Inductive card : Type :=
| LoadingSpinner
| ErrorPanel (error : option jsstring)
| FactParagraph (fact : option jsstring).

(** [isLoading ? <LoadingSpinner /> : error ? (...error...) : (...fact...)] *)
Definition FactDisplay (fact : option jsstring) (isLoading : bool)
  (error : option jsstring) : card :=
  if isLoading then LoadingSpinner
  else if truthy error then ErrorPanel error
  else FactParagraph fact.

(** [<FactDisplay fact={fact} isLoading={isCardLoading} error={error} />] *)
Definition render_card (st : state) : card :=
  FactDisplay (fact st) (isCardLoading st) (error st).

(** [{isLoading ? 'Summoning a Fact...' : 'Reveal New Fact'}] *)
Definition render_label (st : state) : jsstring :=
  if isLoading st then lit "Summoning a Fact..." else lit "Reveal New Fact".

(** The mounted component: its state and calls in flight, and whether the
    mount effect has run.
<<
  useEffect(() => { handleGenerateFact(); }, []);
>>
    With the empty dependency list the effect runs once, after the first
    render, with the callback of that render. *)
Record mounted : Type := { core : world; effect_ran : bool }.

Definition mount : mounted := {| core := boot; effect_ran := false |}.

(** What can happen to the page: the mount effect runs, the user clicks
    the button, a call in flight settles. *)
Inductive ui_event : Type :=
| Effect
| Click
| Settled (call : completion GeminiService.GenerateContentResponse).

Definition with_core (ran : bool) (w : option world) : option mounted :=
  match w with
  | Some w' => Some {| core := w'; effect_ran := ran |}
  | None => None
  end.

(** A click on a disabled button reaches no handler; otherwise it invokes
    [onClick], the callback of the current render. *)
Definition ui_step (a : mounted) (e : ui_event) : option mounted :=
  match e with
  | Effect =>
      if effect_ran a then None
      else with_core true (step (core a) Refresh)
  | Click =>
      if disabled (render_button (ui (core a))) then Some a
      else with_core (effect_ran a) (step (core a) Refresh)
  | Settled call =>
      with_core (effect_ran a) (step (core a) (Settle call))
  end.

Fixpoint ui_run (a : mounted) (es : list ui_event) : option mounted :=
  match es with
  | [] => Some a
  | e :: es' =>
      match ui_step a e with
      | Some a' => ui_run a' es'
      | None => None
      end
  end.

(** What holds of the mounted component: its state is one an exclusive
    run reaches; before the effect has run nothing has happened; after it,
    [isLoading] is false exactly when nothing is in flight. *)
Definition ui_inv (a : mounted) : Prop :=
  (exists es, run_exclusive boot es = Some (core a))
  /\ (effect_ran a = false -> core a = boot)
  /\ (effect_ran a = true ->
      (isLoading (ui (core a)) = false <-> pending (core a) = 0%nat)).

End AppUI.

(* ------------------------------------------------------------------ *)
(** * Properties *)

(** ** [String.prototype.trim] *)

Section Trim.

Lemma allWhiteSpace_rev (s : jsstring) :
  allWhiteSpace (rev s) = allWhiteSpace s.
Proof.
  unfold allWhiteSpace.
  destruct (forallb isWhiteSpace s) eqn:E.
  - apply forallb_forall. intros c Hc.
    rewrite forallb_forall in E. apply E. now apply in_rev.
  - destruct (forallb isWhiteSpace (rev s)) eqn:E'; [|reflexivity].
    rewrite <- E. symmetry. apply forallb_forall. intros c Hc.
    rewrite forallb_forall in E'. apply E'. now apply in_rev in Hc.
Qed.

Lemma trimStart_split (s : jsstring) :
  exists pre, s = pre ++ trimStart s /\ allWhiteSpace pre = true.
Proof.
  induction s as [|c s [pre [Hs Hpre]]]; simpl.
  - now exists [].
  - destruct (isWhiteSpace c) eqn:Hc.
    + exists (c :: pre). simpl. rewrite Hc, Hpre. now rewrite <- Hs.
    + now exists [].
Qed.

Lemma trimStart_head (s : jsstring) :
  startsWithWhiteSpace (trimStart s) = false.
Proof.
  induction s as [|c s IH]; simpl; [reflexivity|].
  destruct (isWhiteSpace c) eqn:Hc; [exact IH|]. simpl. exact Hc.
Qed.

Lemma trimStart_snoc (s : jsstring) (c : codeunit) :
  isWhiteSpace c = false -> trimStart (s ++ [c]) = trimStart s ++ [c].
Proof.
  intros Hc. induction s as [|d s IH]; simpl.
  - now rewrite Hc.
  - destruct (isWhiteSpace d); [exact IH|reflexivity].
Qed.

Lemma trimStart_allWhiteSpace (s : jsstring) :
  allWhiteSpace s = true -> trimStart s = [].
Proof.
  induction s as [|c s IH]; simpl; [reflexivity|].
  intros H. apply andb_prop in H as [Hc Hs]. rewrite Hc. now apply IH.
Qed.

Lemma trimEnd_split (s : jsstring) :
  exists post, s = trimEnd s ++ post /\ allWhiteSpace post = true.
Proof.
  unfold trimEnd. destruct (trimStart_split (rev s)) as [pre [Hs Hpre]].
  exists (rev pre). split.
  - rewrite <- rev_app_distr, <- Hs. now rewrite rev_involutive.
  - now rewrite allWhiteSpace_rev.
Qed.

Lemma trimEnd_last (s : jsstring) :
  endsWithWhiteSpace (trimEnd s) = false.
Proof.
  unfold endsWithWhiteSpace, trimEnd. rewrite rev_involutive.
  apply trimStart_head.
Qed.

Lemma trimEnd_cons (c : codeunit) (s : jsstring) :
  isWhiteSpace c = false -> trimEnd (c :: s) = c :: trimEnd s.
Proof.
  intros Hc. unfold trimEnd. simpl rev at 2.
  rewrite trimStart_snoc by exact Hc.
  now rewrite rev_app_distr.
Qed.

Lemma trim_head (s : jsstring) : startsWithWhiteSpace (trim s) = false.
Proof.
  unfold trim. pose proof (trimStart_head s) as H.
  destruct (trimStart s) as [|c t]; [reflexivity|].
  simpl in H. rewrite trimEnd_cons by exact H. exact H.
Qed.

Lemma trim_last (s : jsstring) : endsWithWhiteSpace (trim s) = false.
Proof. apply trimEnd_last. Qed.

(** [s.trim()] is [s] without a longest white-space prefix and suffix:
    what lies between them is kept as it is. *)
Lemma trim_split (s : jsstring) :
  exists pre post,
    s = pre ++ trim s ++ post
    /\ allWhiteSpace pre = true /\ allWhiteSpace post = true.
Proof.
  destruct (trimStart_split s) as [pre [Hs Hpre]].
  destruct (trimEnd_split (trimStart s)) as [post [Ht Hpost]].
  exists pre, post. unfold trim. now rewrite <- Ht.
Qed.

Lemma trim_nil_iff (s : jsstring) :
  trim s = [] <-> allWhiteSpace s = true.
Proof.
  split.
  - intros H. destruct (trim_split s) as [pre [post [Hs [Hpre Hpost]]]].
    rewrite H in Hs. rewrite Hs. unfold allWhiteSpace in *.
    rewrite forallb_app. simpl. now rewrite Hpre, Hpost.
  - intros H. unfold trim. now rewrite (trimStart_allWhiteSpace s H).
Qed.

End Trim.

(* ------------------------------------------------------------------ *)
(** ** The fact service *)

Section Service.

Import GeminiService.

Lemma truthy_false_iff (v : option jsstring) :
  truthy v = false <-> v = None \/ v = Some [].
Proof.
  destruct v as [[|c s]|]; simpl; split; intros H; auto;
    try discriminate; destruct H; discriminate.
Qed.

(** With a text that is not falsy, the call fulfils with the trimmed
    text. *)
Lemma generatePhysicsFact_text (c : codeunit) (t : jsstring) :
  generatePhysicsFact (Normal {| text := Some (c :: t) |})
  = Normal (trim (c :: t)).
Proof. reflexivity. Qed.

(** Without a text, or with the empty one, the call rejects: the error
    thrown inside [try] is caught by the function's own [catch] and thrown
    again under the prefix. *)
Lemma generatePhysicsFact_no_text (r : GenerateContentResponse) :
  truthy (text r) = false ->
  generatePhysicsFact (Normal r)
  = Throw (ErrorObject (MSG_PREFIX ++ MSG_NO_CONTENT)).
Proof.
  intros H. unfold generatePhysicsFact, generatePhysicsFact_try. simpl.
  now rewrite H.
Qed.

(** The call fulfils with the empty string exactly when the text is not
    empty and is white space throughout. *)
Lemma generatePhysicsFact_empty_iff
  (call : completion GenerateContentResponse) :
  generatePhysicsFact call = Normal []
  <-> exists c t, call = Normal {| text := Some (c :: t) |}
                  /\ allWhiteSpace (c :: t) = true.
Proof.
  split.
  - destruct call as [[[[|c t]|]]|[m|v]]; try discriminate.
    rewrite generatePhysicsFact_text. intros H.
    exists c, t. split; [reflexivity|].
    apply trim_nil_iff. congruence.
  - intros [c [t [-> H]]]. rewrite generatePhysicsFact_text.
    f_equal. now apply trim_nil_iff.
Qed.

(** Claim C2, at the input where the code departs from it: a response
    whose text is three spaces passes the [!text] guard, is trimmed to the
    empty string, and the empty string is returned as the fact, which the
    component then stores. *)
Theorem generatePhysicsFact_blank_text :
  truthy (Some (lit "   ")) = true
  /\ generatePhysicsFact (Normal {| text := Some (lit "   ") |}) = Normal []
  /\ App.run App.boot
       [App.Refresh; App.Settle (Normal {| text := Some (lit "   ") |})]
     = Some {| App.ui := {| App.fact := Some [];
                            App.isLoading := false;
                            App.error := None |};
               App.pending := 0%nat |}.
Proof. repeat split. Qed.

(** Claim C6: a failure of the outbound call that is an [Error] with
    message [M] makes [generatePhysicsFact] fail with the prefix followed by
    [M] (so [timeout] gives the message of the scenario); a thrown value that
    is not an [Error] gives the fixed generic message; and on the first load
    such a failure leaves [fact] null, before and after the settlement, with
    the wrapped message in [error]. *)
Theorem provider_failure_is_wrapped :
  (forall M, generatePhysicsFact (Throw (ErrorObject M))
             = Throw (ErrorObject (MSG_PREFIX ++ M)))
  /\ generatePhysicsFact (Throw (ErrorObject (lit "timeout")))
     = Throw (ErrorObject
                (lit "Failed to generate fact from AI service: timeout"))
  /\ (forall v, generatePhysicsFact (Throw (OtherValue v))
                = Throw (ErrorObject
                           (lit "An unknown error occurred while communicating with the AI service.")))
  /\ (forall e,
        App.fact (App.refresh App.initial) = None
        /\ App.run App.boot [App.Refresh; App.Settle (Throw e)]
           = Some {| App.ui :=
                       {| App.fact := None;
                          App.isLoading := false;
                          App.error :=
                            Some (match e with
                                  | ErrorObject M => MSG_PREFIX ++ M
                                  | OtherValue _ => MSG_UNKNOWN
                                  end) |};
                     App.pending := 0%nat |}).
Proof.
  repeat split; try reflexivity.
  destruct e; reflexivity.
Qed.

(** Claim C9: the text of the example, two spaces before [A fact.] and two
    spaces and a line feed after it, gives exactly [A fact.]; and for every
    text that passes the guard the result is the text without a white-space
    prefix and a white-space suffix, the rest kept as it is, neither starting
    nor ending with white space. *)
Theorem generatePhysicsFact_trims :
  generatePhysicsFact (Normal {| text := Some (lit "  A fact.  " ++ LF) |})
  = Normal (lit "A fact.")
  /\ forall c t,
       generatePhysicsFact (Normal {| text := Some (c :: t) |})
       = Normal (trim (c :: t))
       /\ (exists pre post,
             c :: t = pre ++ trim (c :: t) ++ post
             /\ allWhiteSpace pre = true /\ allWhiteSpace post = true)
       /\ startsWithWhiteSpace (trim (c :: t)) = false
       /\ endsWithWhiteSpace (trim (c :: t)) = false.
Proof.
  split; [reflexivity|]. intros c t.
  split; [reflexivity|]. split; [apply trim_split|].
  split; [apply trim_head | apply trim_last].
Qed.

(** Claim C10: whatever [generatePhysicsFact] throws is an [Error] whose
    message is the prefix followed by something, or the fixed generic
    message; a response without text, or with the empty text, ends as the
    prefix followed by the no-content message, which is also what a failure
    of the outbound call carrying that message ends as. *)
Theorem generatePhysicsFact_throws_wrapped :
  (forall call e,
      generatePhysicsFact call = Throw e ->
      exists m, e = ErrorObject m
                /\ ((exists rest, m = MSG_PREFIX ++ rest) \/ m = MSG_UNKNOWN))
  /\ (forall payload,
        truthy payload = false ->
        generatePhysicsFact (Normal {| text := payload |})
        = Throw (ErrorObject
                   (lit "Failed to generate fact from AI service: No content was returned from the API."))
        /\ generatePhysicsFact (Normal {| text := payload |})
           = generatePhysicsFact (Throw (ErrorObject MSG_NO_CONTENT))).
Proof.
  split.
  - intros call e H.
    destruct call as [[[[|c t]|]]|[m|v]]; try discriminate;
      injection H as <-; eexists; split; try reflexivity;
      solve [left; eexists; reflexivity | right; reflexivity].
  - intros payload H.
    rewrite (generatePhysicsFact_no_text {| text := payload |} H).
    split; reflexivity.
Qed.

Lemma generatePhysicsFact_throws_wrapped_witness :
  generatePhysicsFact (Normal {| text := None |})
  = generatePhysicsFact (Throw (ErrorObject MSG_NO_CONTENT))
  /\ exists m,
       ErrorObject (MSG_PREFIX ++ lit "timeout") = ErrorObject m
       /\ ((exists rest, m = MSG_PREFIX ++ rest) \/ m = MSG_UNKNOWN).
Proof.
  split.
  - apply (proj2 generatePhysicsFact_throws_wrapped None). reflexivity.
  - apply (proj1 generatePhysicsFact_throws_wrapped
             (Throw (ErrorObject (lit "timeout")))).
    reflexivity.
Defined.

(** The claim of C8 as it stands fails: a key that is present but empty
    is falsy, and the guard throws on it. *)
Lemma load_empty_key_throws :
  ~ (forall k, exists ai, load (Some k) = Normal ai).
Proof.
  intros H. destruct (H []) as [ai Hai]. discriminate Hai.
Qed.

(** Claim C8, amended: without a key, or with the empty key, evaluating
    the service module throws, so neither the client nor the component's
    state comes to exist; with a key that is not empty the client is built
    with that key and the component mounts in its initial state. *)
Theorem load_guards_api_key :
  (load None = Throw (ErrorObject MSG_NOT_SET)
   /\ App.start None = Throw (ErrorObject MSG_NOT_SET))
  /\ (load (Some []) = Throw (ErrorObject MSG_NOT_SET)
      /\ App.start (Some []) = Throw (ErrorObject MSG_NOT_SET))
  /\ (forall c k,
        load (Some (c :: k)) = Normal {| apiKey := Some (c :: k) |}
        /\ App.start (Some (c :: k)) = Normal App.boot).
Proof. repeat split. Qed.

End Service.

(* ------------------------------------------------------------------ *)
(** ** The request lifecycle *)

Section Lifecycle.

Import GeminiService App.

Lemma refresh_eq (st : state) :
  refresh st = {| fact := fact st; isLoading := true; error := None |}.
Proof. destruct st as [f [|] e]; reflexivity. Qed.

Lemma settle_fulfilled (st : state) (newFact : jsstring) :
  settle st (Normal newFact)
  = {| fact := Some newFact; isLoading := false; error := error st |}.
Proof. reflexivity. Qed.

Lemma settle_rejected (st : state) (e : thrown) :
  settle st (Throw e)
  = {| fact := None;
       isLoading := false;
       error := Some (match e with
                      | ErrorObject message => message
                      | OtherValue _ => App.MSG_UNKNOWN
                      end) |}.
Proof. reflexivity. Qed.

(** The two ways an exclusive step succeeds. *)
Lemma step_exclusive_refresh (w w' : world) :
  step_exclusive w Refresh = Some w' ->
  pending w = 0%nat
  /\ w' = {| ui := {| fact := fact (ui w); isLoading := true; error := None |};
             pending := 1%nat |}.
Proof.
  unfold step_exclusive. destruct (pending w) eqn:Hp; [|discriminate].
  simpl. rewrite Hp, refresh_eq. intros H. injection H as <-. now split.
Qed.

Lemma step_exclusive_settle
  (w w' : world) (call : completion GenerateContentResponse) :
  step_exclusive w (Settle call) = Some w' ->
  exists n, pending w = S n
            /\ w' = {| ui := settle (ui w) (generatePhysicsFact call);
                       pending := n |}.
Proof.
  simpl. destruct (pending w) as [|n]; [discriminate|].
  intros H. injection H as <-. now exists n.
Qed.

(** Under the discipline, once the callback has been invoked nothing but
    the settlement of its call can come next. *)
Lemma exclusive_refresh_waits (w w' : world) :
  step_exclusive w Refresh = Some w' ->
  forall e w'', step_exclusive w' e = Some w'' -> exists call, e = Settle call.
Proof.
  intros H e w'' He. apply step_exclusive_refresh in H as [_ ->].
  destruct e as [|call]; [discriminate He|now exists call].
Qed.

Lemma exclusive_inv_boot : exclusive_inv boot.
Proof. unfold exclusive_inv. simpl. repeat split; auto. Qed.

Lemma exclusive_inv_step (w w' : world) (e : event) :
  exclusive_inv w -> step_exclusive w e = Some w' -> exclusive_inv w'.
Proof.
  intros (Hle & Hfly & Hex) Hstep. destruct e as [|call].
  - apply step_exclusive_refresh in Hstep as [_ ->].
    unfold exclusive_inv. simpl. repeat split; auto.
  - apply step_exclusive_settle in Hstep as (n & Hp & ->).
    assert (n = 0%nat) as -> by lia.
    destruct (Hfly Hp) as [_ Herr].
    unfold exclusive_inv. simpl. split; [lia|]. split; [discriminate|].
    destruct (generatePhysicsFact call) as [newFact|err].
    + rewrite settle_fulfilled. simpl. now right.
    + rewrite settle_rejected. simpl. now left.
Qed.

Lemma exclusive_inv_run (es : list event) :
  forall w w', exclusive_inv w -> run_exclusive w es = Some w' ->
               exclusive_inv w'.
Proof.
  induction es as [|e es IH]; simpl; intros w w' Hw Hrun.
  - now injection Hrun as <-.
  - destruct (step_exclusive w e) as [w1|] eqn:Hstep; [|discriminate].
    apply (IH w1); [|exact Hrun]. exact (exclusive_inv_step w w1 e Hw Hstep).
Qed.

(** An exclusive run is a run. *)
Lemma run_exclusive_run (es : list event) :
  forall w w', run_exclusive w es = Some w' -> run w es = Some w'.
Proof.
  induction es as [|e es IH]; simpl; intros w w' H; [exact H|].
  destruct (step_exclusive w e) as [w1|] eqn:Hstep; [|discriminate].
  assert (step w e = Some w1) as ->.
  { unfold step_exclusive in Hstep.
    destruct e; [destruct (pending w); [exact Hstep|discriminate]|exact Hstep]. }
  now apply IH.
Qed.

(** Once the component has been through its first invocation, the button
    ([disabled={isLoading}]) is enabled exactly when nothing is in flight:
    a user who can only click the button produces exclusive runs. *)
Lemma button_gates_refresh (es : list event) (w : world) :
  es <> [] -> run_exclusive boot es = Some w ->
  (disabled (render_button (ui w)) = false <-> pending w = 0%nat).
Proof.
  intros Hne Hrun. revert w Hrun.
  induction es as [|e es IH] using rev_ind; [congruence|]. clear Hne.
  intros w Hrun.
  assert (exists w1, run_exclusive boot es = Some w1
                     /\ step_exclusive w1 e = Some w) as (w1 & H1 & Hstep).
  { clear IH. revert Hrun. generalize boot. induction es as [|x es IH]; simpl; intros b Hrun.
    - destruct (step_exclusive b e) as [w1|] eqn:E; [|discriminate].
      injection Hrun as <-. now exists b.
    - destruct (step_exclusive b x) as [b1|]; [|discriminate]. now apply IH. }
  pose proof (exclusive_inv_run es boot w1 exclusive_inv_boot H1) as (Hle & Hfly & _).
  destruct e as [|call].
  - apply step_exclusive_refresh in Hstep as [_ ->]. simpl.
    split; intros; discriminate.
  - apply step_exclusive_settle in Hstep as (n & Hp & ->).
    assert (n = 0%nat) as -> by lia. simpl.
    destruct (generatePhysicsFact call); simpl; split; reflexivity.
Qed.

(** The claim of C1 as it stands fails: two invocations in flight, the
    first call failing with [timeout] and the second answering [Fact B],
    end with both [fact] and [error] set, since the success path writes
    [fact] and leaves [error] alone. *)
Lemma overlapping_refreshes_set_both :
  run boot [Refresh; Refresh;
            Settle (Throw (ErrorObject (lit "timeout")));
            Settle (Normal {| text := Some (lit "Fact B") |})]
  = Some {| ui := {| fact := Some (lit "Fact B");
                     isLoading := false;
                     error := Some (lit "Failed to generate fact from AI service: timeout") |};
            pending := 0%nat |}
  /\ ~ (forall es w, run boot es = Some w ->
                     fact (ui w) = None \/ error (ui w) = None).
Proof.
  split; [reflexivity|]. intros H.
  destruct (H [Refresh; Refresh;
               Settle (Throw (ErrorObject (lit "timeout")));
               Settle (Normal {| text := Some (lit "Fact B") |})] _ eq_refl)
    as [H1|H1]; discriminate H1.
Qed.

(** Claim C1, amended: along every run from the initial state in which
    the callback is invoked only while no call is in flight, [fact] and
    [error] are never both set; a settlement in success leaves [error] null
    and a settlement in failure leaves [fact] null. *)
Theorem exclusive_runs_keep_fact_and_error_apart
  (es : list event) (w : world) :
  run_exclusive boot es = Some w ->
  (fact (ui w) = None \/ error (ui w) = None)
  /\ forall call w',
       step_exclusive w (Settle call) = Some w' ->
       match generatePhysicsFact call with
       | Normal newFact =>
           fact (ui w') = Some newFact /\ error (ui w') = None
       | Throw _ => fact (ui w') = None /\ error (ui w') <> None
       end.
Proof.
  intros Hrun.
  pose proof (exclusive_inv_run es boot w exclusive_inv_boot Hrun)
    as (Hle & Hfly & Hex).
  split; [exact Hex|]. intros call w' Hstep.
  apply step_exclusive_settle in Hstep as (n & Hp & ->).
  assert (n = 0%nat) as -> by lia. destruct (Hfly Hp) as [_ Herr]. simpl.
  destruct (generatePhysicsFact call) as [newFact|e].
  - rewrite settle_fulfilled. simpl. now split.
  - rewrite settle_rejected. simpl. split; [reflexivity|discriminate].
Qed.

Lemma exclusive_runs_keep_fact_and_error_apart_witness :
  exists w,
    run_exclusive boot
      [Refresh; Settle (Throw (ErrorObject (lit "timeout"))); Refresh]
    = Some w
    /\ (fact (ui w) = None \/ error (ui w) = None).
Proof.
  eexists. split; [reflexivity|].
  eapply (exclusive_runs_keep_fact_and_error_apart
            [Refresh; Settle (Throw (ErrorObject (lit "timeout"))); Refresh]).
  reflexivity.
Defined.

(** Claim C3: whatever the state in which the callback is invoked, and
    whatever it is when the call settles, a rejection of
    [generatePhysicsFact()] with an [Error] of message [M] ends with [fact]
    null and [error] equal to [M]. *)
Theorem failure_clears_fact_and_keeps_message (st : state) (M : jsstring) :
  settle (refresh st) (Throw (ErrorObject M))
  = {| fact := None; isLoading := false; error := Some M |}
  /\ settle st (Throw (ErrorObject M))
     = {| fact := None; isLoading := false; error := Some M |}.
Proof. split; reflexivity. Qed.

(** Invocations alone, however many and whatever is in flight, leave
    [fact] as it is: only a settlement writes it. *)
Lemma refreshes_keep_fact (n : nat) :
  forall w, exists w',
    run w (repeat Refresh n) = Some w'
    /\ fact (ui w') = fact (ui w)
    /\ pending w' = (n + pending w)%nat.
Proof.
  induction n as [|n IH]; intros w; simpl.
  - now exists w.
  - destruct (IH {| ui := refresh (ui w); pending := S (pending w) |})
      as (w' & Hrun & Hfact & Hp).
    exists w'. split; [exact Hrun|]. rewrite Hfact, Hp, refresh_eq. simpl.
    split; [reflexivity|lia].
Qed.

(** Claim C4: invoking the callback of the current render sets
    [isLoading] to true, with no call of [setIsLoading] when it is true
    already, sets [error] to null and leaves [fact] as it was; no update
    issued before the call settles writes [fact], whichever render the
    callback comes from, so that [fact] is the same after any number of
    invocations with no settlement between them. *)
Theorem refresh_start_frame (st : state) :
  isLoading (refresh st) = true
  /\ error (refresh st) = None
  /\ fact (refresh st) = fact st
  /\ onClick (render_button st)
     = (if isLoading st then [SetError None]
        else [SetIsLoading true; SetError None])
  /\ (forall b,
        existsb writesFact (handleGenerateFact_start b) = false
        /\ fact (commit st (handleGenerateFact_start b)) = fact st)
  /\ (forall n k, exists w',
        run {| ui := st; pending := k |} (repeat Refresh n) = Some w'
        /\ fact (ui w') = fact st).
Proof.
  rewrite refresh_eq. simpl.
  split; [reflexivity|]. split; [reflexivity|]. split; [reflexivity|].
  split; [now destruct (isLoading st)|]. split.
  - intros b. now destruct b.
  - intros n k.
    destruct (refreshes_keep_fact n {| ui := st; pending := k |})
      as (w' & Hrun & Hfact & _).
    now exists w'.
Qed.

(** The claim of C5 as it stands fails: with two invocations in flight,
    the settlement of the first call sets [isLoading] to false while the
    call of the second has not settled. *)
Lemma overlapping_refresh_ends_loading_early :
  run boot [Refresh; Refresh;
            Settle (Normal {| text := Some (lit "Fact B") |})]
  = Some {| ui := {| fact := Some (lit "Fact B");
                     isLoading := false;
                     error := None |};
            pending := 1%nat |}
  /\ ~ (forall es w, run boot es = Some w ->
                     (0 < pending w)%nat -> isLoading (ui w) = true).
Proof.
  split; [reflexivity|]. intros H.
  specialize (H [Refresh; Refresh;
                 Settle (Normal {| text := Some (lit "Fact B") |})]
                _ eq_refl).
  simpl in H. specialize (H (Nat.lt_0_succ 0)). discriminate H.
Qed.

(** Claim C5, amended: along every run from the initial state in which
    the callback is invoked only while no call is in flight, [isLoading] is
    true whenever a call is in flight, an invocation makes it true and the
    settlement of the call makes it false, in success and in failure alike;
    and of all the updates one invocation issues, exactly one sets
    [isLoading] to false, and it is not among those issued before the
    [await]. *)
Theorem exclusive_runs_bracket_loading (es : list event) (w : world) :
  run_exclusive boot es = Some w ->
  ((0 < pending w)%nat -> isLoading (ui w) = true)
  /\ (forall w', step_exclusive w Refresh = Some w' ->
                 isLoading (ui w') = true /\ pending w' = 1%nat)
  /\ (forall call w', step_exclusive w (Settle call) = Some w' ->
                      isLoading (ui w') = false /\ pending w' = 0%nat)
  /\ (forall b r,
        List.length (filter clearsLoading (handleGenerateFact_updates b r))
        = 1%nat
        /\ existsb clearsLoading (handleGenerateFact_start b) = false).
Proof.
  intros Hrun.
  pose proof (exclusive_inv_run es boot w exclusive_inv_boot Hrun)
    as (Hle & Hfly & _).
  split; [|split; [|split]].
  - intros Hp. apply Hfly. lia.
  - intros w' H. apply step_exclusive_refresh in H as [_ ->]. now split.
  - intros call w' H.
    apply step_exclusive_settle in H as (n & Hp & ->).
    assert (n = 0%nat) as -> by lia. simpl. split; [|reflexivity].
    now destruct (generatePhysicsFact call).
  - intros b r. split.
    + now destruct b, r as [newFact|e].
    + now destruct b.
Qed.

Lemma exclusive_runs_bracket_loading_witness :
  exists w,
    run_exclusive boot
      [Refresh; Settle (Normal {| text := Some (lit "Fact A") |}); Refresh]
    = Some w
    /\ ((0 < pending w)%nat -> isLoading (ui w) = true).
Proof.
  eexists. split; [reflexivity|].
  eapply (exclusive_runs_bracket_loading
            [Refresh; Settle (Normal {| text := Some (lit "Fact A") |});
             Refresh]).
  reflexivity.
Defined.

(** The claim of C7 as it stands fails, in both halves: with the empty
    string as [fact] the flag is true although [fact] is not null; and a
    refresh that starts from a state showing an error sets [error] to null
    first, so the flag is true during it. *)
Lemma isCardLoading_not_as_claimed :
  ~ (forall st,
        isCardLoading st = true
        <-> isLoading st = true /\ fact st = None /\ error st = None)
  /\ ~ (forall st,
          fact st <> None \/ error st <> None ->
          isCardLoading (refresh st) = false).
Proof.
  split; intros H.
  - destruct (H {| fact := Some []; isLoading := true; error := None |})
      as [H1 _].
    destruct (H1 eq_refl) as (_ & Hf & _). discriminate Hf.
  - specialize (H {| fact := None;
                     isLoading := false;
                     error := Some (lit "Failed to generate fact from AI service: timeout") |}).
    simpl in H. discriminate H. right. discriminate.
Qed.

(** Claim C7, amended: the flag is true exactly when [isLoading] is true
    and each of [fact] and [error] is null or the empty string; and a
    refresh that starts from a state whose [fact] is a string that is not
    empty has the flag false once the callback has run up to its [await],
    and, when it is invoked while no call is in flight, from then until its
    call settles: [fact] is still that string, and under that discipline
    nothing but the settlement of the call can come next. *)
Theorem isCardLoading_spec :
  (forall st,
      isCardLoading st = true
      <-> isLoading st = true
          /\ (fact st = None \/ fact st = Some [])
          /\ (error st = None \/ error st = Some []))
  /\ (forall st c f,
        fact st = Some (c :: f) -> isCardLoading (refresh st) = false)
  /\ (forall w w' c f,
        step_exclusive w Refresh = Some w' ->
        fact (ui w) = Some (c :: f) ->
        isCardLoading (ui w') = false
        /\ fact (ui w') = Some (c :: f)
        /\ forall e w'',
             step_exclusive w' e = Some w'' -> exists call, e = Settle call).
Proof.
  split; [|split].
  - intros st. unfold isCardLoading.
    rewrite !andb_true_iff, !negb_true_iff, !truthy_false_iff. tauto.
  - intros st c f Hf. rewrite refresh_eq. unfold isCardLoading. simpl.
    now rewrite Hf.
  - intros w w' c f Hstep Hf.
    pose proof (exclusive_refresh_waits w w' Hstep) as Hwait.
    apply step_exclusive_refresh in Hstep as [_ ->].
    split; [|split; [|exact Hwait]].
    + unfold isCardLoading. simpl. now rewrite Hf.
    + simpl. exact Hf.
Qed.

Lemma isCardLoading_spec_witness :
  step_exclusive
    {| ui := {| fact := Some (lit "Fact A");
                isLoading := false;
                error := None |};
       pending := 0%nat |}
    Refresh
  = Some {| ui := {| fact := Some (lit "Fact A");
                     isLoading := true;
                     error := None |};
            pending := 1%nat |}
  /\ isCardLoading {| fact := Some (lit "Fact A");
                      isLoading := true;
                      error := None |} = false.
Proof.
  split; [reflexivity|].
  eapply (proj2 (proj2 isCardLoading_spec)
            {| ui := {| fact := Some (lit "Fact A");
                        isLoading := false;
                        error := None |};
               pending := 0%nat |}
            {| ui := {| fact := Some (lit "Fact A");
                        isLoading := true;
                        error := None |};
               pending := 1%nat |});
    reflexivity.
Defined.

(** Scenario A of the specification: the first load answers with a
    fact. *)
Example first_load_shows_fact :
  run_exclusive boot
    [Refresh;
     Settle (Normal {| text := Some (lit "Light bends around massive objects.") |})]
  = Some {| ui := {| fact := Some (lit "Light bends around massive objects.");
                     isLoading := false;
                     error := None |};
            pending := 0%nat |}.
Proof. reflexivity. Qed.

(** Scenario C: a refresh while [Fact A] is shown keeps it in the card,
    with no spinner, until [Fact B] replaces it. *)
Example refresh_replaces_fact :
  let shown := {| fact := Some (lit "Fact A");
                  isLoading := false;
                  error := None |} in
  fact (refresh shown) = Some (lit "Fact A")
  /\ isCardLoading (refresh shown) = false
  /\ settle (refresh shown)
        (generatePhysicsFact (Normal {| text := Some (lit "Fact B") |}))
     = {| fact := Some (lit "Fact B"); isLoading := false; error := None |}.
Proof. repeat split. Qed.

End Lifecycle.

(* ------------------------------------------------------------------ *)
(** ** More on [trim] and on the fact service *)

Section TrimMore.

Lemma trimStart_fixed (s : jsstring) :
  startsWithWhiteSpace s = false -> trimStart s = s.
Proof. destruct s as [|c s]; simpl; [reflexivity|]. now intros ->. Qed.

Lemma trimStart_app (pre s : jsstring) :
  allWhiteSpace pre = true -> trimStart (pre ++ s) = trimStart s.
Proof.
  induction pre as [|c pre IH]; simpl; [reflexivity|].
  intros H. apply andb_prop in H as [Hc Hpre]. rewrite Hc. now apply IH.
Qed.

Lemma trimEnd_fixed (s : jsstring) :
  endsWithWhiteSpace s = false -> trimEnd s = s.
Proof.
  unfold endsWithWhiteSpace, trimEnd. intros H.
  rewrite (trimStart_fixed _ H). apply rev_involutive.
Qed.

Lemma trimEnd_app (s post : jsstring) :
  allWhiteSpace post = true -> trimEnd (s ++ post) = trimEnd s.
Proof.
  intros H. unfold trimEnd. rewrite rev_app_distr.
  rewrite trimStart_app; [reflexivity|]. now rewrite allWhiteSpace_rev.
Qed.

(** Any way of writing [s] as white space, a body without white space at
    its ends, and white space again, has [s.trim()] as its body. *)
Lemma trim_unique (pre body post : jsstring) :
  allWhiteSpace pre = true -> allWhiteSpace post = true ->
  startsWithWhiteSpace body = false -> endsWithWhiteSpace body = false ->
  trim (pre ++ body ++ post) = body.
Proof.
  intros Hpre Hpost Hhead Hlast. unfold trim.
  rewrite trimStart_app by exact Hpre.
  destruct body as [|c b].
  - simpl. rewrite (trimStart_allWhiteSpace post Hpost). reflexivity.
  - simpl in Hhead. change ((c :: b) ++ post) with (c :: (b ++ post)).
    simpl trimStart. rewrite Hhead.
    change (c :: b ++ post) with ((c :: b) ++ post).
    rewrite trimEnd_app by exact Hpost. now apply trimEnd_fixed.
Qed.

Lemma trim_idempotent (s : jsstring) : trim (trim s) = trim s.
Proof.
  rewrite <- (app_nil_r (trim s)) at 1.
  apply (trim_unique [] (trim s) []); try reflexivity.
  - apply trim_head.
  - apply trim_last.
Qed.

End TrimMore.

Section ServiceMore.

Import GeminiService.

Lemma generatePhysicsFact_normal_inv
  (call : completion GenerateContentResponse) (newFact : jsstring) :
  generatePhysicsFact call = Normal newFact ->
  exists c t, call = Normal {| text := Some (c :: t) |}
              /\ newFact = trim (c :: t).
Proof.
  destruct call as [[[[|c t]|]]|[m|v]]; try discriminate.
  rewrite generatePhysicsFact_text. intros H. injection H as <-.
  now exists c, t.
Qed.

(** The call fulfils exactly when the outbound call fulfils with a text
    that is not empty, and then with that text trimmed. *)
Theorem generatePhysicsFact_fulfils_iff
  (call : completion GenerateContentResponse) (newFact : jsstring) :
  generatePhysicsFact call = Normal newFact
  <-> exists c t, call = Normal {| text := Some (c :: t) |}
                  /\ newFact = trim (c :: t).
Proof.
  split.
  - apply generatePhysicsFact_normal_inv.
  - intros (c & t & -> & ->). apply generatePhysicsFact_text.
Qed.

(** Whatever white space surrounds the body of the answer, the fact
    returned is the body. *)
Theorem generatePhysicsFact_returns_body (pre body post : jsstring) :
  allWhiteSpace pre = true -> allWhiteSpace post = true ->
  startsWithWhiteSpace body = false -> endsWithWhiteSpace body = false ->
  pre ++ body ++ post <> [] ->
  generatePhysicsFact (Normal {| text := Some (pre ++ body ++ post) |})
  = Normal body.
Proof.
  intros Hpre Hpost Hhead Hlast Hne.
  rewrite <- (trim_unique pre body post Hpre Hpost Hhead Hlast) at 2.
  destruct (pre ++ body ++ post) as [|c t]; [congruence|].
  apply generatePhysicsFact_text.
Qed.

Lemma generatePhysicsFact_returns_body_witness :
  generatePhysicsFact
    (Normal {| text := Some ([0x09; 0x20] ++ lit "E = mc^2" ++ [0x0D; 0x0A]) |})
  = Normal (lit "E = mc^2").
Proof.
  apply (generatePhysicsFact_returns_body
           [0x09; 0x20] (lit "E = mc^2") [0x0D; 0x0A]);
    try reflexivity.
  discriminate.
Defined.

(** A fact the call has returned, given back to it as the text of an
    answer, is returned unchanged. *)
Theorem generatePhysicsFact_keeps_its_facts
  (call : completion GenerateContentResponse) (newFact : jsstring) :
  generatePhysicsFact call = Normal newFact ->
  newFact <> [] ->
  generatePhysicsFact (Normal {| text := Some newFact |}) = Normal newFact.
Proof.
  intros H Hne.
  apply generatePhysicsFact_normal_inv in H as (c & t & _ & ->).
  destruct (trim (c :: t)) as [|d f] eqn:E; [congruence|].
  rewrite generatePhysicsFact_text, <- E. f_equal. apply trim_idempotent.
Qed.

Lemma generatePhysicsFact_keeps_its_facts_witness :
  generatePhysicsFact (Normal {| text := Some (lit "A fact.") |})
  = Normal (lit "A fact.").
Proof.
  apply (generatePhysicsFact_keeps_its_facts
           (Normal {| text := Some (lit "  A fact.  " ++ LF) |})).
  - reflexivity.
  - discriminate.
Defined.

(** What [generatePhysicsFact] throws. *)
Lemma generatePhysicsFact_throw_inv
  (call : completion GenerateContentResponse) (e : thrown) :
  generatePhysicsFact call = Throw e ->
  exists m, e = ErrorObject m
            /\ ((exists rest, m = MSG_PREFIX ++ rest) \/ m = MSG_UNKNOWN).
Proof.
  intros H.
  destruct call as [[[[|c t]|]]|[m|v]]; try discriminate;
    injection H as <-; eexists; split; try reflexivity;
    solve [left; eexists; reflexivity | right; reflexivity].
Qed.

(** The wrapping loses nothing of an [Error]: two failures of the outbound
    call that surface alike carried the same message; and a failure that was
    an [Error] never surfaces as one that was not. *)
Theorem wrapped_failure_keeps_message :
  (forall M1 M2,
      generatePhysicsFact (Throw (ErrorObject M1))
      = generatePhysicsFact (Throw (ErrorObject M2)) ->
      M1 = M2)
  /\ (forall M v,
        generatePhysicsFact (Throw (ErrorObject M))
        <> generatePhysicsFact (Throw (OtherValue v))).
Proof.
  split.
  - intros M1 M2 H. unfold generatePhysicsFact in H. simpl in H.
    assert (MSG_PREFIX ++ M1 = MSG_PREFIX ++ M2) as H' by congruence.
    exact (app_inv_head _ _ _ H').
  - intros M v H. discriminate H.
Qed.

End ServiceMore.

(* ------------------------------------------------------------------ *)
(** ** More on the request lifecycle: all runs, the card, the page *)

Section LifecycleMore.

Import GeminiService App AppUI.

(** A property of worlds that every step keeps is kept by every run. *)
Lemma run_preserves (P : world -> Prop) :
  (forall w e w', P w -> step w e = Some w' -> P w') ->
  forall es w w', P w -> run w es = Some w' -> P w'.
Proof.
  intros Hstep. induction es as [|e es IH]; simpl; intros w w' Hw Hrun.
  - now injection Hrun as <-.
  - destruct (step w e) as [w1|] eqn:E; [|discriminate].
    exact (IH w1 w' (Hstep w e w1 Hw E) Hrun).
Qed.

Lemma step_inv (w w' : world) (e : event) :
  step w e = Some w' ->
  (e = Refresh /\ ui w' = refresh (ui w))
  \/ (exists call, e = Settle call
                   /\ ui w' = settle (ui w) (generatePhysicsFact call)).
Proof.
  destruct e as [|call]; simpl.
  - intros H. injection H as <-. now left.
  - destruct (pending w); [discriminate|]. intros H. injection H as <-.
    right. now exists call.
Qed.

Lemma service_message_shape (m : jsstring) :
  (exists rest, m = MSG_PREFIX ++ rest) \/ m = GeminiService.MSG_UNKNOWN ->
  m <> [] /\ m <> App.MSG_UNKNOWN.
Proof.
  intros [[rest ->]| ->]; split; intros H; discriminate H.
Qed.

(** In every run, overlapping invocations included, a message in [error]
    is one the service made: the prefix followed by something, or the
    service's generic message.  It is never the empty string, which the card
    would take for no error, and never the fallback of [handleGenerateFact]
    for a thrown value that is not an [Error]. *)
Theorem shown_errors_come_from_the_service
  (es : list event) (w : world) (m : jsstring) :
  run boot es = Some w ->
  error (ui w) = Some m ->
  ((exists rest, m = MSG_PREFIX ++ rest) \/ m = GeminiService.MSG_UNKNOWN)
  /\ m <> [] /\ m <> App.MSG_UNKNOWN.
Proof.
  intros Hrun Herr.
  assert (forall m, error (ui w) = Some m ->
                    (exists rest, m = MSG_PREFIX ++ rest)
                    \/ m = GeminiService.MSG_UNKNOWN) as H.
  { apply (run_preserves
             (fun w => forall m, error (ui w) = Some m ->
                                 (exists rest, m = MSG_PREFIX ++ rest)
                                 \/ m = GeminiService.MSG_UNKNOWN))
      with (es := es) (w := boot); [|discriminate|exact Hrun].
    clear. intros w e w' Hw Hstep m Hm.
    destruct (step_inv w w' e Hstep) as [[_ Hui]|(call & _ & Hui)];
      rewrite Hui in Hm.
    - rewrite refresh_eq in Hm. discriminate Hm.
    - destruct (generatePhysicsFact call) as [newFact|err] eqn:E.
      + rewrite settle_fulfilled in Hm. now apply Hw.
      + destruct (generatePhysicsFact_throw_inv call err E) as (m' & -> & Hm').
        rewrite settle_rejected in Hm. simpl in Hm. now injection Hm as <-. }
  split; [now apply H|]. apply service_message_shape. now apply H.
Qed.

Lemma shown_errors_come_from_the_service_witness :
  lit "Failed to generate fact from AI service: quota" <> App.MSG_UNKNOWN.
Proof.
  apply (shown_errors_come_from_the_service
           [Refresh; Refresh; Settle (Throw (ErrorObject (lit "quota")))]
           {| ui := {| fact := None;
                       isLoading := false;
                       error := Some (lit "Failed to generate fact from AI service: quota") |};
              pending := 1%nat |});
    reflexivity.
Defined.

(** In every run, overlapping invocations included, a string in [fact]
    neither starts nor ends with white space. *)
Theorem shown_facts_are_trimmed
  (es : list event) (w : world) (f : jsstring) :
  run boot es = Some w ->
  fact (ui w) = Some f ->
  startsWithWhiteSpace f = false /\ endsWithWhiteSpace f = false.
Proof.
  intros Hrun. revert f.
  apply (run_preserves
           (fun w => forall f, fact (ui w) = Some f ->
                               startsWithWhiteSpace f = false
                               /\ endsWithWhiteSpace f = false))
    with (es := es) (w := boot); [|discriminate|exact Hrun].
  clear. intros w e w' Hw Hstep f Hf.
  destruct (step_inv w w' e Hstep) as [[_ Hui]|(call & _ & Hui)];
    rewrite Hui in Hf.
  - rewrite refresh_eq in Hf. now apply Hw.
  - destruct (generatePhysicsFact call) as [newFact|err] eqn:E.
    + rewrite settle_fulfilled in Hf. simpl in Hf. injection Hf as <-.
      apply generatePhysicsFact_normal_inv in E as (c & t & _ & ->).
      split; [apply trim_head|apply trim_last].
    + rewrite settle_rejected in Hf. discriminate Hf.
Qed.

Lemma shown_facts_are_trimmed_witness :
  startsWithWhiteSpace (lit "Fact B") = false
  /\ endsWithWhiteSpace (lit "Fact B") = false.
Proof.
  apply (shown_facts_are_trimmed
           [Refresh; Settle (Normal {| text := Some (LF ++ lit "Fact B  ") |})]
           {| ui := {| fact := Some (lit "Fact B");
                       isLoading := false;
                       error := None |};
              pending := 0%nat |});
    reflexivity.
Defined.

Lemma settle_refresh_eq (st : state) (r : completion jsstring) :
  settle (refresh st) r = settle initial r.
Proof. rewrite refresh_eq. now destruct r. Qed.

(** A refresh that runs from invocation to settlement with nothing else
    in between leaves a state that depends on the answer alone: the trimmed
    text and no error, or no fact and the wrapped message. *)
Theorem completed_refresh_state
  (st : state) (call : completion GenerateContentResponse) :
  settle (refresh st) (generatePhysicsFact call)
  = match call with
    | Normal {| text := Some (c :: t) |} =>
        {| fact := Some (trim (c :: t)); isLoading := false; error := None |}
    | Normal _ =>
        {| fact := None; isLoading := false;
           error := Some (MSG_PREFIX ++ MSG_NO_CONTENT) |}
    | Throw (ErrorObject M) =>
        {| fact := None; isLoading := false; error := Some (MSG_PREFIX ++ M) |}
    | Throw (OtherValue _) =>
        {| fact := None; isLoading := false;
           error := Some GeminiService.MSG_UNKNOWN |}
    end.
Proof.
  rewrite refresh_eq.
  destruct call as [[[[|c t]|]]|[M|v]]; reflexivity.
Qed.

(** While a refresh invoked with no other call in flight is under way,
    from its invocation until its call settles, the button is disabled and
    reads [Summoning a Fact...], a click changes nothing, and the card shows
    the fact the refresh started from when that is a string that is not
    empty, the spinner otherwise; it never shows an error.  Under that
    discipline nothing but the settlement of the call can come next, so this
    is the state for the whole of the refresh. *)
Theorem card_during_refresh (w w' : world) :
  step_exclusive w Refresh = Some w' ->
  pending w' = 1%nat
  /\ disabled (render_button (ui w')) = true
  /\ render_label (ui w') = lit "Summoning a Fact..."
  /\ render_card (ui w')
     = (if truthy (fact (ui w)) then FactParagraph (fact (ui w))
        else LoadingSpinner)
  /\ (forall ran,
        ui_step {| core := w'; effect_ran := ran |} Click
        = Some {| core := w'; effect_ran := ran |})
  /\ (forall e w'',
        step_exclusive w' e = Some w'' -> exists call, e = Settle call).
Proof.
  intros Hstep. pose proof (exclusive_refresh_waits w w' Hstep) as Hwait.
  apply step_exclusive_refresh in Hstep as [_ ->].
  unfold render_card, FactDisplay, isCardLoading. simpl.
  split; [reflexivity|]. split; [reflexivity|]. split; [reflexivity|].
  split; [now destruct (truthy (fact (ui w)))|].
  split; [reflexivity|exact Hwait].
Qed.

Lemma card_during_refresh_witness :
  render_card {| fact := Some (lit "Fact A");
                 isLoading := true;
                 error := None |}
  = FactParagraph (Some (lit "Fact A")).
Proof.
  eapply (card_during_refresh
            {| ui := {| fact := Some (lit "Fact A");
                        isLoading := false;
                        error := Some (lit "Failed to generate fact from AI service: timeout") |};
               pending := 0%nat |}
            {| ui := {| fact := Some (lit "Fact A");
                        isLoading := true;
                        error := None |};
               pending := 1%nat |}).
  reflexivity.
Defined.

(** Once such a refresh has settled the button is enabled and reads
    [Reveal New Fact], and the card shows the trimmed text of the answer, or
    the error panel with the wrapped message; it never shows the spinner. *)
Theorem card_after_refresh
  (st : state) (call : completion GenerateContentResponse) :
  let st' := settle (refresh st) (generatePhysicsFact call) in
  disabled (render_button st') = false
  /\ render_label st' = lit "Reveal New Fact"
  /\ render_card st'
     = match call with
       | Normal {| text := Some (c :: t) |} =>
           FactParagraph (Some (trim (c :: t)))
       | Normal _ => ErrorPanel (Some (MSG_PREFIX ++ MSG_NO_CONTENT))
       | Throw (ErrorObject M) => ErrorPanel (Some (MSG_PREFIX ++ M))
       | Throw (OtherValue _) => ErrorPanel (Some GeminiService.MSG_UNKNOWN)
       end.
Proof.
  cbv zeta. rewrite settle_refresh_eq.
  destruct call as [[[[|c t]|]]|[M|v]]; repeat split.
Qed.

(** *** The page as the only trigger *)

Lemma run_exclusive_snoc (es : list event) (e : event) :
  forall w,
    run_exclusive w (es ++ [e])
    = match run_exclusive w es with
      | Some w1 => step_exclusive w1 e
      | None => None
      end.
Proof.
  induction es as [|x es IH]; simpl; intros w.
  - now destruct (step_exclusive w e).
  - destruct (step_exclusive w x) as [w1|]; [apply IH|reflexivity].
Qed.

Lemma ui_inv_mount : ui_inv mount.
Proof.
  unfold ui_inv. simpl. split; [now exists []|]. split; [reflexivity|].
  discriminate.
Qed.

Lemma ui_inv_step (a a' : mounted) (e : ui_event) :
  ui_inv a -> ui_step a e = Some a' -> ui_inv a'.
Proof.
  intros Ha Hstep. pose proof Ha as ((es & Hes) & Hbefore & Hafter).
  pose proof (exclusive_inv_run es boot (core a) exclusive_inv_boot Hes)
    as (Hle & _ & _).
  destruct e as [| |call]; simpl in Hstep.
  - (* the mount effect *)
    destruct (effect_ran a) eqn:Hran; [discriminate|].
    injection Hstep as <-. rewrite (Hbefore eq_refl) in *.
    unfold ui_inv. simpl. split; [now exists [Refresh]|].
    split; [discriminate|]. intros _. split; discriminate.
  - (* a click *)
    destruct (isLoading (ui (core a))) eqn:Hload.
    + injection Hstep as <-. exact Ha.
    + injection Hstep as <-.
      destruct (effect_ran a) eqn:Hran.
      * assert (pending (core a) = 0%nat) as Hp by now apply Hafter.
        unfold ui_inv. simpl. rewrite Hp, refresh_eq. simpl.
        split.
        { exists (es ++ [Refresh]). rewrite run_exclusive_snoc, Hes.
          unfold step_exclusive. rewrite Hp. simpl.
          now rewrite Hp, refresh_eq. }
        split; [discriminate|]. intros _. split; discriminate.
      * rewrite (Hbefore eq_refl) in Hload. discriminate Hload.
  - (* a settlement *)
    destruct (pending (core a)) as [|n] eqn:Hp; [discriminate|].
    assert (n = 0%nat) as -> by lia.
    injection Hstep as <-. unfold ui_inv. simpl.
    split.
    { exists (es ++ [Settle call]). rewrite run_exclusive_snoc, Hes.
      simpl. now rewrite Hp. }
    split.
    + intros Hran. rewrite (Hbefore Hran) in Hp. discriminate Hp.
    + intros _. destruct (generatePhysicsFact call); simpl; split; reflexivity.
Qed.

Lemma ui_inv_run (es : list ui_event) :
  forall a a', ui_inv a -> ui_run a es = Some a' -> ui_inv a'.
Proof.
  induction es as [|e es IH]; simpl; intros a a' Ha Hrun.
  - now injection Hrun as <-.
  - destruct (ui_step a e) as [a1|] eqn:E; [|discriminate].
    exact (IH a1 a' (ui_inv_step a a1 e Ha E) Hrun).
Qed.

(** With the mount effect and the button as the only triggers, whatever
    the user clicks and however the calls settle, the component only ever
    is in a state that an exclusive run reaches: at most one call is in
    flight, and a click while one is in flight changes nothing. *)
Theorem page_runs_are_exclusive (es : list ui_event) (a : mounted) :
  ui_run mount es = Some a ->
  (exists es', run_exclusive boot es' = Some (core a))
  /\ (pending (core a) <= 1)%nat
  /\ (pending (core a) = 1%nat -> ui_step a Click = Some a).
Proof.
  intros Hrun.
  destruct (ui_inv_run es mount a ui_inv_mount Hrun) as ((es' & Hes) & _ & _).
  pose proof (exclusive_inv_run es' boot (core a) exclusive_inv_boot Hes)
    as (Hle & Hfly & _).
  split; [now exists es'|]. split; [exact Hle|].
  intros Hp. destruct (Hfly Hp) as [Hload _]. simpl. now rewrite Hload.
Qed.

Lemma page_runs_are_exclusive_witness :
  exists a,
    ui_run mount [Click; Effect; Click;
                  Settled (Normal {| text := Some (lit "Fact A") |});
                  Click; Click]
    = Some a
    /\ (pending (core a) <= 1)%nat.
Proof.
  eexists. split; [reflexivity|].
  eapply (page_runs_are_exclusive
            [Click; Effect; Click;
             Settled (Normal {| text := Some (lit "Fact A") |});
             Click; Click]).
  reflexivity.
Defined.

(** On the page, [fact] and [error] are never both set; and once the
    mount effect has run, the button is enabled, and reads
    [Reveal New Fact], exactly when no call is in flight: it is never left
    disabled with nothing to wait for. *)
Theorem page_button_tracks_calls (es : list ui_event) (a : mounted) :
  ui_run mount es = Some a ->
  (fact (ui (core a)) = None \/ error (ui (core a)) = None)
  /\ (effect_ran a = true ->
      (disabled (render_button (ui (core a))) = false
       <-> pending (core a) = 0%nat)
      /\ (render_label (ui (core a)) = lit "Reveal New Fact"
          <-> pending (core a) = 0%nat)).
Proof.
  intros Hrun.
  destruct (ui_inv_run es mount a ui_inv_mount Hrun)
    as ((es' & Hes) & _ & Hafter).
  pose proof (exclusive_inv_run es' boot (core a) exclusive_inv_boot Hes)
    as (_ & _ & Hex).
  split; [exact Hex|]. intros Hran. specialize (Hafter Hran).
  split; [exact Hafter|].
  unfold render_label. destruct (isLoading (ui (core a))).
  - split; [discriminate|]. intros Hp. apply Hafter in Hp. discriminate Hp.
  - split; [intros _; now apply Hafter|reflexivity].
Qed.

Lemma page_button_tracks_calls_witness :
  exists a,
    ui_run mount [Effect; Settled (Throw (ErrorObject (lit "timeout"))); Click]
    = Some a
    /\ (fact (ui (core a)) = None \/ error (ui (core a)) = None).
Proof.
  eexists. split; [reflexivity|].
  eapply (page_button_tracks_calls
            [Effect; Settled (Throw (ErrorObject (lit "timeout"))); Click]).
  reflexivity.
Defined.

End LifecycleMore.
